(** * ExtendedHogFeatureExtractor: sampling and assembly layer

    A shallow embedding of [imageprocessing::ExtendedHogFeatureExtractor]
    (libImageProcessing/include/imageprocessing/ExtendedHogFeatureExtractor.hpp).

    The header defines one member function in full, the template
    [createPatchData]; it is embedded from its C++ text in [PatchSampler].
    [createIndexLut], [createPyramid], [extract] and the constructors are only
    declared there.  The models of [createIndexLut], [createPyramid] and
    [extract] are written from the specification and are marked as such; the
    constructors are not modelled. *)

From Stdlib Require Import ZArith Lia Bool Reals Lra.
From stdpp Require Import base list.

Local Open Scope Z_scope.

(** ** IndexMapper: reflection-aware index look-up tables *)

Module IndexMapper.

(** A C-style [while (cond(i)) i = body(i);] over one integer variable.  The
    fuel bounds the number of times the condition is evaluated; [None] means
    the fuel ran out before the condition became false. *)
Fixpoint while_loop (fuel : nat) (cond : Z -> bool) (body : Z -> option Z)
    (i : Z) : option Z :=
  match fuel with
  | O => None
  | S fuel' =>
      if cond i then
        match body i with
        | Some i' => while_loop fuel' cond body i'
        | None => None
        end
      else Some i
  end.

(** [while (i < 0) i = -i - 1;] *)
Definition reflectLow (fuel : nat) (i : Z) : option Z :=
  while_loop fuel (fun i => i <? 0) (fun i => Some (- i - 1)) i.

(** [while (i >= imageSize) i = 2 * imageSize - i - 1;] *)
Definition reflectHigh (fuel : nat) (imageSize i : Z) : option Z :=
  while_loop fuel (fun i => imageSize <=? i)
    (fun i => Some (2 * imageSize - i - 1)) i.

Definition outOfRange (imageSize i : Z) : bool :=
  (i <? 0) || (imageSize <=? i).

(** One round of border reflection: the low loop, then the high loop. *)
Definition reflectRound (fuel : nat) (imageSize i : Z) : option Z :=
  match reflectLow fuel i with
  | Some j => reflectHigh fuel imageSize j
  | None => None
  end.

(** What one round computes once both loops have left ([reflectRound_enough]):
    each of them runs its body at most once. *)
Definition roundOf (imageSize i : Z) : Z :=
  let j := if i <? 0 then - i - 1 else i in
  if imageSize <=? j then 2 * imageSize - j - 1 else j.

(** The rounds are repeated until the index is in range. *)
Definition reflectIndexFuel (rounds fuel : nat) (imageSize i : Z) : option Z :=
  while_loop rounds (outOfRange imageSize) (reflectRound fuel imageSize) i.

(** Fuel that is enough for every index when [imageSize >= 1]
    (see [reflectIndexFuel_enough]); every round brings the index strictly
    closer to zero. *)
Definition fuelFor (i : Z) : nat := S (S (Z.to_nat (Z.abs i))).

Definition reflectIndex (imageSize i : Z) : option Z :=
  reflectIndexFuel (fuelFor i) (fuelFor i) imageSize i.

(** The entries for the raw indices [i], [i+1], ..., [i+count-1]. *)
Fixpoint lutEntries (imageSize i : Z) (count : nat) : option (list Z) :=
  match count with
  | O => Some []
  | S count' =>
      match reflectIndex imageSize i, lutEntries imageSize (i + 1) count' with
      | Some v, Some rest => Some (v :: rest)
      | _, _ => None
      end
  end.

(** Modelled from the spec: the body of [createIndexLut] (section 4.1,
    [buildAxisLUT]) is missing from the header, which only declares it.  For
    each output position [k] in [[0, patchSize)] the raw index
    [patchStart + k] is reflected at the borders until it is in range.  The
    result is [None] when the reflection does not terminate.  Integers are the
    unbounded integers of the specification. *)
Definition createIndexLut (imageSize patchStart patchSize : Z) : option (list Z) :=
  lutEntries imageSize patchStart (Z.to_nat patchSize).

(** The specification's wording as a relation: [reflects n i v] when
    repeated reflection of [i] at the borders of [[0, n)] stops at [v]. *)
Inductive reflects (imageSize : Z) : Z -> Z -> Prop :=
| reflects_in_range i :
    0 <= i < imageSize -> reflects imageSize i i
| reflects_low i v :
    i < 0 -> reflects imageSize (- i - 1) v -> reflects imageSize i v
| reflects_high i v :
    0 <= i -> imageSize <= i -> reflects imageSize (2 * imageSize - i - 1) v ->
    reflects imageSize i v.

(** The mirror image of [i] in closed form: the reflected axis has period
    [2 * imageSize]. *)
Definition mirror (imageSize i : Z) : Z :=
  let m := i mod (2 * imageSize) in
  if m <? imageSize then m else 2 * imageSize - 1 - m.

End IndexMapper.

(** ** PatchSampler: copying image elements through the look-up tables *)

Module PatchSampler.

Section Element.

(** The template argument [T] of [createPatchData<T>]: the representation of
    one matrix element (a single value or a small vector of values).  The
    caller instantiates it with the element representation of
    [image.type()]. *)
Variable T : Type.

(** A continuous [cv::Mat] holding elements of [T]: the element of row [y]
    and column [x] is stored at offset [y * cols + x] of the buffer.
    [mat_type] is the value of [type()].  The dimensions are assumed to fit
    an [int]. *)
Record Mat : Type := mkMat {
  mat_rows : nat;
  mat_cols : nat;
  mat_type : Z;
  mat_data : list T
}.

Definition Mat_wf (m : Mat) : Prop :=
  length (mat_data m) = (mat_rows m * mat_cols m)%nat.

(** [cv::Mat m(rows, cols, type)]: a new buffer whose elements are not
    initialised; [uninit] gives the indeterminate content of each cell. *)
Definition Mat_create (rows cols : nat) (type : Z) (uninit : nat -> T) : Mat :=
  mkMat rows cols type (uninit <$> seq 0 (rows * cols)).

(** [m.ptr<T>(y)]: the address of the first element of row [y], as an offset
    into the buffer of [m].  OpenCV computes [data + y * step]; for the
    continuous matrices modelled here a row step is [cols] elements.  A view
    into a larger matrix (a step above [cols]) is outside this model.  No
    bounds check is made here. *)
Definition ptr (m : Mat) (y : Z) : Z := y * Z.of_nat (mat_cols m).

(** [p[x]] as an rvalue, for a pointer [p] into the buffer of [m]; an access
    outside the buffer has no defined result. *)
Definition load (m : Mat) (p x : Z) : option T :=
  let a := p + x in
  if a <? 0 then None else mat_data m !! Z.to_nat a.

(** [p[x] = v] for a pointer [p] into the buffer of [m]. *)
Definition store (m : Mat) (p x : Z) (v : T) : option Mat :=
  let a := p + x in
  if (0 <=? a) && (a <? Z.of_nat (length (mat_data m))) then
    Some (mkMat (mat_rows m) (mat_cols m) (mat_type m)
            (<[Z.to_nat a := v]> (mat_data m)))
  else None.

(** [m.at<T>(y, x)]: the element of row [y] and column [x], with bounds
    checks.  Used to state properties only. *)
Definition Mat_at (m : Mat) (y x : Z) : option T :=
  if (0 <=? y) && (y <? Z.of_nat (mat_rows m))
     && (0 <=? x) && (x <? Z.of_nat (mat_cols m))
  then mat_data m !! Z.to_nat (y * Z.of_nat (mat_cols m) + x)
  else None.

(** The objects [createPatchData] can reach: its three reference arguments
    and the local [patch].  [rowIndices] and [colIndices] are taken by
    non-const reference, so they are part of the state that is threaded
    through the loops. *)
Record Frame : Type := mkFrame {
  st_image : Mat;
  st_rowIndices : list Z;
  st_colIndices : list Z;
  st_patch : Mat
}.

Definition set_patch (s : Frame) (p : Mat) : Frame :=
  mkFrame (st_image s) (st_rowIndices s) (st_colIndices s) p.

(** [for (size_t patchX = ...; patchX < colIndices.size(); ++patchX)
      patchRow[patchX] = imageRow[colIndices[patchX]];]
    The loop condition is evaluated on the current state at every iteration;
    [fuel] bounds the number of iterations. *)
Fixpoint copyRow (fuel : nat) (patchRow imageRow : Z) (patchX : nat)
    (s : Frame) : option Frame :=
  if (patchX <? length (st_colIndices s))%nat then
    match fuel with
    | O => None
    | S fuel' =>
        match st_colIndices s !! patchX with
        | None => None
        | Some c =>
            match load (st_image s) imageRow c with
            | None => None
            | Some v =>
                match store (st_patch s) patchRow (Z.of_nat patchX) v with
                | None => None
                | Some p => copyRow fuel' patchRow imageRow (S patchX) (set_patch s p)
                end
            end
        end
    end
  else Some s.

(** [for (size_t patchY = ...; patchY < rowIndices.size(); ++patchY) { ... }] *)
Fixpoint copyRows (fuel : nat) (patchY : nat) (s : Frame) : option Frame :=
  if (patchY <? length (st_rowIndices s))%nat then
    match fuel with
    | O => None
    | S fuel' =>
        let patchRow := ptr (st_patch s) (Z.of_nat patchY) in
        match st_rowIndices s !! patchY with
        | None => None
        | Some r =>
            let imageRow := ptr (st_image s) r in
            match copyRow (length (st_colIndices s)) patchRow imageRow 0 s with
            | None => None
            | Some s' => copyRows fuel' (S patchY) s'
            end
        end
    end
  else Some s.

(** [createPatchData<T>(image, rowIndices, colIndices)].  The result is the
    state when the function returns: [st_patch] is the returned matrix, the
    other fields are the arguments as the caller finds them afterwards.
    [None] stands for an access outside a buffer.  The loops run at most
    [rowIndices.size()] and [colIndices.size()] times, which is the fuel they
    are given. *)
Definition createPatchData (uninit : nat -> T) (image : Mat)
    (rowIndices colIndices : list Z) : option Frame :=
  let patch :=
    Mat_create (length rowIndices) (length colIndices) (mat_type image) uninit in
  copyRows (length rowIndices) 0 (mkFrame image rowIndices colIndices patch).

(** The element [createPatchData] writes to position [(r, c)] of the patch:
    the one it reads through [imageRow[colIndices[c]]] with [imageRow] the
    pointer to row [rowIndices[r]].  Outside the tables, and where the read
    has no result, the value is immaterial. *)
Definition sampled (uninit : nat -> T) (image : Mat)
    (rowIndices colIndices : list Z) (r c : nat) : T :=
  default (uninit 0%nat)
    (ri ← rowIndices !! r; ci ← colIndices !! c; load image (ptr image ri) ci).

(** Loop invariant of the copy: the content of the patch buffer once the
    cells at the offsets below [k] have been written. *)
Definition filled (uninit : nat -> T) (image : Mat)
    (rowIndices colIndices : list Z) (k a : nat) : T :=
  if (a <? k)%nat then
    sampled uninit image rowIndices colIndices
      (a / length colIndices) (a mod length colIndices)
  else uninit a.

Definition partial (uninit : nat -> T) (image : Mat)
    (rowIndices colIndices : list Z) (k : nat) : Frame :=
  mkFrame image rowIndices colIndices
    (mkMat (length rowIndices) (length colIndices) (mat_type image)
       (filled uninit image rowIndices colIndices k
          <$> seq 0 (length rowIndices * length colIndices))).

End Element.

Arguments mkMat {T} _ _ _ _.
Arguments mat_rows {T} _.
Arguments mat_cols {T} _.
Arguments mat_type {T} _.
Arguments mat_data {T} _.
Arguments Mat_wf {T} _.
Arguments Mat_create {T} _ _ _ _.
Arguments ptr {T} _ _.
Arguments load {T} _ _ _.
Arguments store {T} _ _ _ _.
Arguments Mat_at {T} _ _ _.
Arguments mkFrame {T} _ _ _ _.
Arguments st_image {T} _.
Arguments st_rowIndices {T} _.
Arguments st_colIndices {T} _.
Arguments st_patch {T} _.
Arguments set_patch {T} _ _.
Arguments copyRow {T} _ _ _ _ _.
Arguments copyRows {T} _ _ _.
Arguments createPatchData {T} _ _ _ _.
Arguments sampled {T} _ _ _ _ _ _.
Arguments filled {T} _ _ _ _ _ _.
Arguments partial {T} _ _ _ _ _.

End PatchSampler.

(** ** FeatureAssembler: layer selection, sampling, cropping *)

Module FeatureAssembler.

Import IndexMapper PatchSampler.

Record Rect : Type := mkRect {
  rect_x : Z;
  rect_y : Z;
  rect_width : Z;
  rect_height : Z
}.

(** The computations on [double] scale factors that belong to the pyramid and
    to the geometry of the enlarged rectangle.  The header does not contain
    them and the specification gives no formula for them, so they are an
    interface. *)
Class ScaleOps (Scale : Type) : Type := {
  (** whether a layer of this scale factor makes a request of
      [width] x [height] match the nominal [patchWidth] x [patchHeight],
      within tolerance *)
  layerMatches : Z -> Z -> Scale -> Z -> Z -> bool;
  (** a rectangle of the source image in the pixel coordinates of a layer *)
  scaleRect : Scale -> Rect -> Rect;
  (** enlargement by [widthFactor] and [heightFactor] *)
  enlargeRect : Scale -> Scale -> Rect -> Rect
}.

(** The output of the descriptor filter: rows of cells, each cell a vector
    of values. *)
Abbreviation Grid Value := (list (list (list Value))).

Section Assembler.

(** [Elem]: element of a layer image; [Value]: one real value of a
    descriptor; [Scale]: a [double] scale factor. *)
Variables Elem Value Scale : Type.
Context `{ScaleOps Scale}.

Record Layer : Type := mkLayer {
  scaleFactor : Scale;
  layerImage : Mat Elem
}.

(** The members of the class as the header lists them; the filter is the
    black box [apply(patch) -> grid] of the specification. *)
Record Extractor : Type := mkExtractor {
  pyramid : list Layer;
  ehogFilter : Mat Elem -> Grid Value;
  patchWidth : Z;
  patchHeight : Z;
  cellSize : Z;
  widthFactor : Scale;
  heightFactor : Scale
}.

Record Patch : Type := mkPatch {
  patch_bounds : Rect;
  patch_data : list Value
}.

(** [Absent] is the empty result; [Fault] stands for an access outside a
    buffer while sampling. *)
Inductive ExtractResult : Type :=
| Extracted (p : Patch)
| Absent
| Fault.

(** Step 1: the first layer of the pyramid that matches the request. *)
Definition selectLayer (e : Extractor) (width height : Z) : option Layer :=
  List.find
    (fun l => layerMatches (patchWidth e) (patchHeight e) (scaleFactor l) width height)
    (pyramid e).

(** Step 2: the request in layer coordinates, enlarged. *)
Definition samplingRect (e : Extractor) (l : Layer) (r : Rect) : Rect :=
  enlargeRect (widthFactor e) (heightFactor e) (scaleRect (scaleFactor l) r).

(** Step 6: the list without its first and its last entry. *)
Definition stripEnds {A : Type} (l : list A) : list A :=
  take (length l - 2) (drop 1 l).

Definition dropRing (g : Grid Value) : Grid Value :=
  stripEnds <$> stripEnds g.

Definition assemble (g : Grid Value) : list Value := concat (concat (dropRing g)).

(** A grid of [rows] x [cols] cells with descriptors of length [d]. *)
Definition GridShape (rows cols d : nat) (g : Grid Value) : Prop :=
  length g = rows /\
  Forall (fun row => length row = cols /\ Forall (fun cell => length cell = d) row) g.

(** Steps 3 and 4: the look-up tables over the enlarged rectangle and the
    patch copied through them. *)
Definition samplePatch (uninit : nat -> Elem) (image : Mat Elem) (r : Rect)
    : option (option (Mat Elem)) :=
  match createIndexLut (Z.of_nat (mat_rows image)) (rect_y r) (rect_height r),
        createIndexLut (Z.of_nat (mat_cols image)) (rect_x r) (rect_width r) with
  | Some rowIndices, Some colIndices =>
      Some (st_patch <$> createPatchData uninit image rowIndices colIndices)
  | _, _ => None
  end.

(** Modelled from the spec: the body of [extract] is missing from the header,
    which only declares it ([extract(x, y, width, height) const]).  Section
    4.4 gives its seven steps and section 7 its results: absent when no layer
    matches or when the enlarged rectangle cannot be reflected into the
    image.  [uninit] is the indeterminate content of the newly allocated
    patch buffer.  The second component is the extractor as the call leaves
    it. *)
Definition extract (e : Extractor) (uninit : nat -> Elem) (x y width height : Z)
    : ExtractResult * Extractor :=
  match selectLayer e width height with
  | None => (Absent, e)
  | Some layer =>
      let bounds := mkRect x y width height in
      match samplePatch uninit (layerImage layer) (samplingRect e layer bounds) with
      | None => (Absent, e)
      | Some None => (Fault, e)
      | Some (Some patchData) =>
          (Extracted (mkPatch bounds (assemble (ehogFilter e patchData))), e)
      end
  end.

End Assembler.

Arguments mkLayer {Elem Scale} _ _.
Arguments scaleFactor {Elem Scale} _.
Arguments layerImage {Elem Scale} _.
Arguments mkExtractor {Elem Value Scale} _ _ _ _ _ _ _.
Arguments pyramid {Elem Value Scale} _.
Arguments ehogFilter {Elem Value Scale} _ _.
Arguments patchWidth {Elem Value Scale} _.
Arguments patchHeight {Elem Value Scale} _.
Arguments cellSize {Elem Value Scale} _.
Arguments widthFactor {Elem Value Scale} _.
Arguments heightFactor {Elem Value Scale} _.
Arguments mkPatch {Value} _ _.
Arguments patch_bounds {Value} _.
Arguments patch_data {Value} _.
Arguments Extracted {Value} _.
Arguments Absent {Value}.
Arguments Fault {Value}.
Arguments selectLayer {Elem Value Scale _} _ _ _.
Arguments samplingRect {Elem Value Scale _} _ _ _.
Arguments dropRing {Value} _.
Arguments assemble {Value} _.
Arguments GridShape {Value} _ _ _ _.
Arguments samplePatch {Elem} _ _ _.
Arguments extract {Elem Value Scale _} _ _ _ _ _ _.

End FeatureAssembler.

(** ** A small instance, used to run the definitions *)

Module Examples.

Import PatchSampler FeatureAssembler.

(** Whole-number scale factors; the enlargement factor is the margin added
    on each side. *)
#[export] Instance intScale : ScaleOps Z := {|
  layerMatches pw ph s w h := (w * s =? pw) && (h * s =? ph);
  scaleRect s r :=
    mkRect (rect_x r * s) (rect_y r * s) (rect_width r * s) (rect_height r * s);
  enlargeRect wf hf r :=
    mkRect (rect_x r - wf) (rect_y r - hf)
      (rect_width r + 2 * wf) (rect_height r + 2 * hf)
|}.

(** A filter with a 3 x 3 grid of cells and one value per cell. *)
Definition exampleFilter (m : Mat Z) : Grid Z :=
  (fun i => (fun j => [default 0 (mat_data m !! (i * 3 + j)%nat)]) <$> seq 0 3)
    <$> seq 0 3.

Definition exampleImage : Mat Z := mkMat 2 2 0 [1; 2; 3; 4].

Definition exampleExtractor : Extractor Z Z Z :=
  mkExtractor [mkLayer 1 exampleImage] exampleFilter 1 1 1 1 1.

End Examples.

(** ** Vocabulary for further properties of [createPatchData] *)

Module PatchSamplerOps.

Import PatchSampler.

(** The offset [imageRow[x]] reads for [imageRow = image.ptr<T>(y)] lies
    inside the buffer of [m]. *)
Definition inBuffer {T : Type} (m : Mat T) (y x : Z) : Prop :=
  0 <= y * Z.of_nat (mat_cols m) + x < Z.of_nat (length (mat_data m)).

(** The table [0, 1, ..., n-1]. *)
Definition identityLut (n : nat) : list Z := Z.of_nat <$> seq 0 n.

(** The table that looks every entry of [inner] up in [outer]. *)
Definition composeLut (outer inner : list Z) : list Z :=
  (fun i => default 0 (outer !! Z.to_nat i)) <$> inner.

(** The matrix with [f] applied to every element. *)
Definition Mat_map {T U : Type} (f : T -> U) (m : Mat T) : Mat U :=
  mkMat (mat_rows m) (mat_cols m) (mat_type m) (f <$> mat_data m).

(** A 2 x 3 image to run the definitions on. *)
Definition image23 : Mat Z := mkMat 2 3 0 [10; 11; 12; 20; 21; 22].

End PatchSamplerOps.

(** ** PyramidSelector: the scale factors of the derived pyramid *)

Module PyramidSelector.




End PyramidSelector.

(** ** Layer selection over real scale factors *)

Module LayerSelection.

Import FeatureAssembler.

Section Tolerance.

(** [tolerance]: how far, in pixels of the layer, a scaled request may be
    from the nominal patch size and still match.  The two geometry functions
    stay an interface. *)
Variable tolerance : R.
Variable scaleRectR : R -> Rect -> Rect.
Variable enlargeRectR : R -> R -> Rect -> Rect.

(** Modelled from the spec: the layer look-up of the pyramid is not part of
    the sources.  Section 4.4, step 1, selects "the pyramid layer whose scale
    factor makes width/height match the assembler's fixed nominal patch
    size", section 7 "within tolerance": a layer of scale factor [scale]
    matches a requested extent when the scaled extent is within [tolerance]
    of the nominal one. *)
Definition matchesWithin (nominal : Z) (scale : R) (requested : Z) : bool :=
  if Rle_dec (Rabs (IZR requested * scale - IZR nominal)) tolerance
  then true else false.

Definition realScale : ScaleOps R := {|
  layerMatches pw ph s w h := matchesWithin pw s w && matchesWithin ph s h;
  scaleRect := scaleRectR;
  enlargeRect := enlargeRectR
|}.

End Tolerance.

End LayerSelection.

(** ** An instance with a derived pyramid of one layer *)

Module RealExamples.

Import PatchSampler FeatureAssembler Examples.


End RealExamples.

(** ** Facts about IndexMapper *)

Section IndexMapperFacts.

Import IndexMapper.

Lemma mirror_in_range n i : 0 <= i < n -> mirror n i = i.
Proof.
  intros Hi. unfold mirror. rewrite Z.mod_small by lia.
  destruct (Z.ltb_spec i n); lia.
Qed.

Lemma mirror_bounds n i : 1 <= n -> 0 <= mirror n i < n.
Proof.
  intros Hn. unfold mirror.
  pose proof (Z.mod_pos_bound i (2 * n)) as Hm.
  destruct (Z.ltb_spec (i mod (2 * n)) n); lia.
Qed.

Lemma mod_flip n i : 1 <= n -> (- i - 1) mod (2 * n) = 2 * n - 1 - i mod (2 * n).
Proof.
  intros Hn. symmetry.
  apply (Z.mod_unique_pos _ _ (- (i / (2 * n)) - 1)).
  - pose proof (Z.mod_pos_bound i (2 * n)). lia.
  - pose proof (Z.div_mod i (2 * n)). lia.
Qed.

Lemma mirror_low n i : 1 <= n -> mirror n (- i - 1) = mirror n i.
Proof.
  intros Hn. unfold mirror. rewrite mod_flip by lia.
  pose proof (Z.mod_pos_bound i (2 * n)).
  destruct (Z.ltb_spec (i mod (2 * n)) n),
    (Z.ltb_spec (2 * n - 1 - i mod (2 * n)) n); lia.
Qed.

Lemma mirror_high n i : 1 <= n -> mirror n (2 * n - i - 1) = mirror n i.
Proof.
  intros Hn. rewrite <- (mirror_low n i) by lia. unfold mirror.
  replace (2 * n - i - 1) with (- i - 1 + 1 * (2 * n)) by lia.
  now rewrite Z.mod_add by lia.
Qed.

(** Each inner loop leaves after at most one pass through its body. *)
Lemma reflectLow_enough fuel i :
  (2 <= fuel)%nat -> reflectLow fuel i = Some (if i <? 0 then - i - 1 else i).
Proof.
  intros Hf. destruct fuel as [|[|fuel]]; try lia.
  unfold reflectLow. simpl.
  destruct (Z.ltb_spec i 0) as [Hi|Hi]; [|reflexivity].
  destruct (Z.ltb_spec (- i - 1) 0); [lia|reflexivity].
Qed.

Lemma reflectHigh_enough fuel n i :
  (2 <= fuel)%nat ->
  reflectHigh fuel n i = Some (if n <=? i then 2 * n - i - 1 else i).
Proof.
  intros Hf. destruct fuel as [|[|fuel]]; try lia.
  unfold reflectHigh. simpl.
  destruct (Z.leb_spec n i) as [Hi|Hi]; [|reflexivity].
  destruct (Z.leb_spec n (2 * n - i - 1)); [lia|reflexivity].
Qed.

Lemma reflectRound_enough fuel n i :
  (2 <= fuel)%nat -> reflectRound fuel n i = Some (roundOf n i).
Proof.
  intros Hf. unfold reflectRound, roundOf.
  rewrite reflectLow_enough by assumption. now apply reflectHigh_enough.
Qed.

(** The variant of the outer loop. *)
Lemma roundOf_closer n i :
  1 <= n -> outOfRange n i = true -> Z.abs (roundOf n i) < Z.abs i.
Proof.
  unfold outOfRange, roundOf. intros Hn Ho.
  destruct (Z.ltb_spec i 0) as [Hlt|Hge].
  - destruct (Z.leb_spec n (- i - 1)); lia.
  - simpl in Ho. destruct (Z.leb_spec n i); [lia|discriminate].
Qed.

Lemma mirror_roundOf n i : 1 <= n -> mirror n (roundOf n i) = mirror n i.
Proof.
  intros Hn. unfold roundOf.
  destruct (Z.ltb_spec i 0).
  - destruct (Z.leb_spec n (- i - 1)).
    + rewrite mirror_high by lia. now apply mirror_low.
    + now apply mirror_low.
  - destruct (Z.leb_spec n i); [now apply mirror_high|reflexivity].
Qed.

(** Termination: with two units of fuel for the inner loops and more rounds
    than [|i|], the reflection of [i] returns, and returns the mirror image. *)
Lemma reflectIndexFuel_enough n rounds fuel i :
  1 <= n -> (2 <= fuel)%nat -> Z.abs i < Z.of_nat rounds ->
  reflectIndexFuel rounds fuel n i = Some (mirror n i).
Proof.
  intros Hn Hf. revert i. induction rounds as [|rounds IH]; intros i Hi; [lia|].
  unfold reflectIndexFuel. simpl.
  destruct (outOfRange n i) eqn:Ho.
  - rewrite reflectRound_enough by assumption.
    pose proof (roundOf_closer n i Hn Ho).
    fold (reflectIndexFuel rounds fuel n (roundOf n i)).
    rewrite IH by lia. now rewrite mirror_roundOf.
  - unfold outOfRange in Ho. apply orb_false_elim in Ho as [Hlo Hhi].
    rewrite mirror_in_range; [reflexivity|]. lia.
Qed.


Lemma reflectIndex_mirror n i : 1 <= n -> reflectIndex n i = Some (mirror n i).
Proof.
  intros Hn. unfold reflectIndex. apply reflectIndexFuel_enough; unfold fuelFor; lia.
Qed.

Lemma lutEntries_mirror n count i :
  1 <= n ->
  lutEntries n i count
  = Some ((fun k => mirror n (i + Z.of_nat k)) <$> seq 0 count).
Proof.
  intros Hn. revert i. induction count as [|count IH]; intros i; [reflexivity|].
  simpl. rewrite reflectIndex_mirror, IH by assumption.
  rewrite Z.add_0_r. do 2 f_equal.
  rewrite <- fmap_S_seq, <- list_fmap_compose.
  apply list_fmap_ext. intros _ k _. simpl. f_equal. lia.
Qed.

Lemma createIndexLut_mirror n patchStart patchSize :
  1 <= n ->
  createIndexLut n patchStart patchSize
  = Some ((fun k => mirror n (patchStart + Z.of_nat k)) <$> seq 0 (Z.to_nat patchSize)).
Proof. intros Hn. now apply lutEntries_mirror. Qed.


Lemma reflects_mirror n i : 1 <= n -> reflects n i (mirror n i).
Proof.
  intros Hn.
  assert (forall m i, Z.abs i < Z.of_nat m -> reflects n i (mirror n i)) as Hall.
  { clear i. induction m as [|m IH]; intros i Hi; [lia|].
    destruct (Z.ltb_spec i 0) as [Hlt|Hge].
    - apply reflects_low; [assumption|].
      rewrite <- (mirror_low n i) by assumption. apply IH. lia.
    - destruct (Z.leb_spec n i) as [Hhi|Hin].
      + apply reflects_high; [assumption..|].
        rewrite <- (mirror_high n i) by assumption.
        destruct (Z.ltb_spec (2 * n - i - 1) 0) as [Hneg|Hpos].
        * apply reflects_low; [assumption|].
          rewrite <- (mirror_low n (2 * n - i - 1)) by assumption. apply IH. lia.
        * apply IH. lia.
      + rewrite mirror_in_range by lia. apply reflects_in_range. lia. }
  apply (Hall (S (Z.to_nat (Z.abs i)))). lia.
Qed.

Lemma reflects_unique n i v : reflects n i v -> v = mirror n i.
Proof.
  intros Hr. assert (1 <= n) as Hn by (induction Hr; lia).
  induction Hr as [i Hi|i v Hi _ IH|i v Hi Hn' _ IH].
  - now rewrite mirror_in_range.
  - now rewrite IH, mirror_low.
  - now rewrite IH, mirror_high.
Qed.

(** C1. For [imageSize >= 1], [patchSize >= 1] and any [patchStart],
    [createIndexLut] returns a table; it has exactly [patchSize] entries and
    each entry lies in [[0, imageSize - 1]].  The reflection loops behind
    every entry return with any fuel from [fuelFor] upwards. *)
Theorem createIndexLut_total_in_range imageSize patchStart patchSize :
  1 <= imageSize -> 1 <= patchSize ->
  exists lut,
    createIndexLut imageSize patchStart patchSize = Some lut /\
    Z.of_nat (length lut) = patchSize /\
    Forall (fun v => 0 <= v <= imageSize - 1) lut /\
    forall k rounds fuel,
      0 <= k < patchSize ->
      (fuelFor (patchStart + k) <= rounds)%nat -> (2 <= fuel)%nat ->
      reflectIndexFuel rounds fuel imageSize (patchStart + k) = lut !! Z.to_nat k.
Proof.
  intros Hn Hp. eexists. split; [now apply createIndexLut_mirror|].
  split; [rewrite length_fmap, length_seq; lia|]. split.
  - apply Forall_fmap, Forall_forall. intros k _. simpl.
    pose proof (mirror_bounds imageSize (patchStart + Z.of_nat k) Hn). lia.
  - intros k rounds fuel Hk Hr Hf.
    rewrite reflectIndexFuel_enough by (unfold fuelFor in Hr; lia).
    rewrite list_lookup_fmap, lookup_seq_lt by lia. simpl.
    now rewrite Z2Nat.id by lia.
Qed.

Lemma createIndexLut_total_in_range_witness :
  exists lut,
    createIndexLut 10 8 4 = Some lut /\
    Z.of_nat (length lut) = 4 /\
    Forall (fun v => 0 <= v <= 10 - 1) lut /\
    forall k rounds fuel,
      0 <= k < 4 ->
      (fuelFor (8 + k) <= rounds)%nat -> (2 <= fuel)%nat ->
      reflectIndexFuel rounds fuel 10 (8 + k) = lut !! Z.to_nat k.
Proof. apply (createIndexLut_total_in_range 10 8 4); lia. Defined.

(** C2. For [imageSize >= 1] and [patchSize >= 1], entry [k] of the table is
    the value at which repeated reflection of [patchStart + k] at the borders
    stops, and there is only one such value; a patch that lies inside the
    image gets the identity table [patchStart, ..., patchStart+patchSize-1];
    and the table for image size 10, start -2 and size 4 is [1, 0, 0, 1]. *)
Theorem createIndexLut_reflects imageSize patchStart patchSize :
  1 <= imageSize -> 1 <= patchSize ->
  (exists lut,
     createIndexLut imageSize patchStart patchSize = Some lut /\
     (forall k, 0 <= k < patchSize ->
        exists v, lut !! Z.to_nat k = Some v /\
                  reflects imageSize (patchStart + k) v /\
                  0 <= v < imageSize /\
                  forall w, reflects imageSize (patchStart + k) w -> w = v) /\
     (0 <= patchStart -> patchStart + patchSize <= imageSize ->
        lut = (fun k => patchStart + Z.of_nat k) <$> seq 0 (Z.to_nat patchSize))) /\
  createIndexLut 10 (-2) 4 = Some [1; 0; 0; 1].
Proof.
  intros Hn Hp. split; [|reflexivity].
  eexists. split; [now apply createIndexLut_mirror|]. split.
  - intros k Hk. exists (mirror imageSize (patchStart + k)).
    split; [|split; [|split]].
    + rewrite list_lookup_fmap, lookup_seq_lt by lia. simpl.
      now rewrite Z2Nat.id by lia.
    + now apply reflects_mirror.
    + now apply mirror_bounds.
    + intros w Hw. now apply reflects_unique.
  - intros Hs He. apply list_fmap_ext. intros i k Hk.
    apply lookup_seq in Hk as [-> Hk]. apply mirror_in_range. lia.
Qed.

Lemma createIndexLut_reflects_witness :
  (exists lut,
     createIndexLut 3 (-7) 12 = Some lut /\
     (forall k, 0 <= k < 12 ->
        exists v, lut !! Z.to_nat k = Some v /\
                  reflects 3 (-7 + k) v /\
                  0 <= v < 3 /\
                  forall w, reflects 3 (-7 + k) w -> w = v) /\
     (0 <= -7 -> -7 + 12 <= 3 ->
        lut = (fun k => -7 + Z.of_nat k) <$> seq 0 (Z.to_nat 12))) /\
  createIndexLut 10 (-2) 4 = Some [1; 0; 0; 1].
Proof. apply (createIndexLut_reflects 3 (-7) 12); lia. Defined.

(** The specification's example at the far edge. *)
Example createIndexLut_far_edge :
  createIndexLut 10 8 4 = Some [8; 9; 9; 8].
Proof. reflexivity. Qed.

(** Several bounces: an image of three pixels under a patch of twelve. *)
Example createIndexLut_many_bounces :
  createIndexLut 3 (-7) 12 = Some [0; 0; 1; 2; 2; 1; 0; 0; 1; 2; 2; 1].
Proof. reflexivity. Qed.

End IndexMapperFacts.

(** ** Facts about PatchSampler *)

Section PatchSamplerFacts.

Import PatchSampler.

Context {T : Type}.

(** The loops write to [st_patch] only. *)
Lemma copyRow_frame fuel patchRow imageRow patchX (s s' : Frame T) :
  copyRow fuel patchRow imageRow patchX s = Some s' ->
  st_image s' = st_image s /\ st_rowIndices s' = st_rowIndices s /\
  st_colIndices s' = st_colIndices s.
Proof.
  revert patchX s. induction fuel as [|fuel IH]; intros patchX s; simpl.
  - destruct (patchX <? length (st_colIndices s))%nat; [discriminate|].
    intros [= <-]. auto.
  - destruct (patchX <? length (st_colIndices s))%nat; [|intros [= <-]; auto].
    destruct (st_colIndices s !! patchX) as [c|]; [|discriminate].
    destruct (load (st_image s) imageRow c) as [v|]; [|discriminate].
    destruct (store (st_patch s) patchRow (Z.of_nat patchX) v) as [p|]; [|discriminate].
    intros Hrun. apply IH in Hrun. exact Hrun.
Qed.

Lemma copyRows_frame fuel patchY (s s' : Frame T) :
  copyRows fuel patchY s = Some s' ->
  st_image s' = st_image s /\ st_rowIndices s' = st_rowIndices s /\
  st_colIndices s' = st_colIndices s.
Proof.
  revert patchY s. induction fuel as [|fuel IH]; intros patchY s; simpl.
  - destruct (patchY <? length (st_rowIndices s))%nat; [discriminate|].
    intros [= <-]. auto.
  - destruct (patchY <? length (st_rowIndices s))%nat; [|intros [= <-]; auto].
    destruct (st_rowIndices s !! patchY) as [r|]; [|discriminate].
    destruct (copyRow _ _ _ _ s) as [s1|] eqn:Hrow; [|discriminate].
    intros Hrun. apply IH in Hrun. apply copyRow_frame in Hrow.
    destruct Hrun as (-> & -> & ->). exact Hrow.
Qed.

(** A checked access and the pointer access of the loop read the same cell. *)
Lemma load_Mat_at (m : Mat T) y x v :
  Mat_at m y x = Some v -> load m (ptr m y) x = Some v.
Proof.
  unfold Mat_at, load, ptr. intros Hat.
  destruct (Z.leb_spec 0 y); [|discriminate].
  destruct (Z.ltb_spec y (Z.of_nat (mat_rows m))); [|discriminate].
  destruct (Z.leb_spec 0 x); [|discriminate].
  destruct (Z.ltb_spec x (Z.of_nat (mat_cols m))); [|discriminate].
  simpl in Hat. destruct (Z.ltb_spec (y * Z.of_nat (mat_cols m) + x) 0); [nia|].
  exact Hat.
Qed.

Lemma Mat_at_valid (m : Mat T) y x :
  Mat_wf m -> 0 <= y < Z.of_nat (mat_rows m) -> 0 <= x < Z.of_nat (mat_cols m) ->
  is_Some (Mat_at m y x).
Proof.
  unfold Mat_wf, Mat_at. intros Hwf Hy Hx.
  destruct (Z.leb_spec 0 y); [|lia].
  destruct (Z.ltb_spec y (Z.of_nat (mat_rows m))); [|lia].
  destruct (Z.leb_spec 0 x); [|lia].
  destruct (Z.ltb_spec x (Z.of_nat (mat_cols m))); [|lia].
  simpl. apply lookup_lt_is_Some_2. rewrite Hwf. nia.
Qed.

Section Copy.

Variable uninit : nat -> T.
Variable image : Mat T.
Variables rowIndices colIndices : list Z.

Local Abbreviation nrows := (length rowIndices).
Local Abbreviation ncols := (length colIndices).
Local Abbreviation sampled' := (sampled uninit image rowIndices colIndices).
Local Abbreviation filled' := (filled uninit image rowIndices colIndices).
Local Abbreviation partial' := (partial uninit image rowIndices colIndices).

Lemma insert_filled k :
  (k < nrows * ncols)%nat ->
  <[k := sampled' (k / ncols)%nat (k mod ncols)%nat]> (filled' k <$> seq 0 (nrows * ncols))
  = filled' (S k) <$> seq 0 (nrows * ncols).
Proof.
  intros Hk. apply list_eq. intros i. destruct (decide (i = k)) as [->|Hne].
  - rewrite list_lookup_insert_eq by (rewrite length_fmap, length_seq; lia).
    rewrite list_lookup_fmap, lookup_seq_lt by lia. simpl. unfold filled.
    destruct (Nat.ltb_spec k (S k)); [reflexivity|lia].
  - rewrite list_lookup_insert_ne by congruence. rewrite !list_lookup_fmap.
    destruct (seq 0 (nrows * ncols) !! i) as [a|] eqn:E; [|reflexivity].
    apply lookup_seq in E as [-> _]. simpl. unfold filled.
    destruct (Nat.ltb_spec i k), (Nat.ltb_spec i (S k)); try reflexivity; lia.
Qed.

Lemma offset_div_mod y x :
  (x < ncols)%nat -> ((y * ncols + x) / ncols = y /\ (y * ncols + x) mod ncols = x)%nat.
Proof.
  intros Hx. split.
  - rewrite Nat.div_add_l by lia. rewrite Nat.div_small by lia. lia.
  - rewrite Nat.add_comm, Nat.Div0.mod_add. apply Nat.mod_small. lia.
Qed.

Hypothesis loads :
  forall r c ri ci, rowIndices !! r = Some ri -> colIndices !! c = Some ci ->
    is_Some (load image (ptr image ri) ci).

(** The inner loop completes row [y] of the patch. *)
Lemma copyRow_partial y ri :
  rowIndices !! y = Some ri ->
  forall d x fuel, (x + d = ncols)%nat -> (d <= fuel)%nat ->
    copyRow fuel (Z.of_nat y * Z.of_nat ncols) (ptr image ri) x (partial' (y * ncols + x)%nat)
    = Some (partial' (y * ncols + ncols)%nat).
Proof.
  intros Hy. assert (y < nrows)%nat as HyH by (apply lookup_lt_Some in Hy; exact Hy).
  induction d as [|d IH]; intros x fuel Hx Hf.
  - replace x with ncols by lia. destruct fuel; simpl;
      rewrite Nat.ltb_irrefl; reflexivity.
  - destruct fuel as [|fuel]; [lia|]. simpl.
    destruct (Nat.ltb_spec x ncols) as [HxW|]; [|lia].
    destruct (lookup_lt_is_Some_2 colIndices x HxW) as [ci Hci]. rewrite Hci.
    destruct (loads y x ri ci Hy Hci) as [v Hv]. rewrite Hv.
    assert (sampled' y x = v) as Hs.
    { unfold sampled. rewrite Hy. simpl. rewrite Hci. simpl. now rewrite Hv. }
    unfold store. simpl. rewrite length_fmap, length_seq.
    assert (y * ncols + x < nrows * ncols)%nat as Hlt by nia.
    destruct (Z.leb_spec 0 (Z.of_nat y * Z.of_nat ncols + Z.of_nat x)); [|lia].
    destruct (Z.ltb_spec (Z.of_nat y * Z.of_nat ncols + Z.of_nat x) (Z.of_nat (nrows * ncols)));
      [|lia].
    simpl. unfold set_patch. simpl.
    replace (Z.to_nat (Z.of_nat y * Z.of_nat ncols + Z.of_nat x)) with (y * ncols + x)%nat by lia.
    destruct (offset_div_mod y x HxW) as [Hq Hr].
    pose proof (insert_filled (y * ncols + x) Hlt) as Hins.
    rewrite Hq, Hr, Hs in Hins. rewrite Hins.
    replace (S (y * ncols + x)) with (y * ncols + S x)%nat by lia.
    apply IH; lia.
Qed.

(** The outer loop completes the patch. *)
Lemma copyRows_partial d :
  forall y fuel, (y + d = nrows)%nat -> (d <= fuel)%nat ->
    copyRows fuel y (partial' (y * ncols)%nat) = Some (partial' (nrows * ncols)%nat).
Proof.
  induction d as [|d IH]; intros y fuel Hy Hf.
  - replace y with nrows by lia. destruct fuel; simpl;
      rewrite Nat.ltb_irrefl; reflexivity.
  - destruct fuel as [|fuel]; [lia|]. simpl.
    destruct (Nat.ltb_spec y nrows) as [HyH|]; [|lia].
    destruct (lookup_lt_is_Some_2 rowIndices y HyH) as [ri Hri]. rewrite Hri.
    unfold ptr at 1. simpl.
    pose proof (copyRow_partial y ri Hri ncols 0%nat ncols) as Hrow.
    rewrite Nat.add_0_r in Hrow. rewrite Hrow by lia.
    replace (y * ncols + ncols)%nat with (S y * ncols)%nat by lia.
    apply IH; lia.
Qed.

(** When every read through the tables has a result, [createPatchData]
    returns, leaves its arguments as they were, and every cell of the patch
    holds the element read for it, whatever the buffer held before. *)
Lemma createPatchData_sampled :
  createPatchData uninit image rowIndices colIndices
  = Some (mkFrame image rowIndices colIndices
            (mkMat nrows ncols (mat_type image)
               ((fun a => sampled' (a / ncols)%nat (a mod ncols)%nat) <$> seq 0 (nrows * ncols)))).
Proof.
  unfold createPatchData, Mat_create.
  assert (uninit <$> seq 0 (nrows * ncols) = filled' 0%nat <$> seq 0 (nrows * ncols)) as ->.
  { apply list_fmap_ext. intros i a _. reflexivity. }
  pose proof (copyRows_partial nrows 0%nat nrows) as Hrun. simpl in Hrun.
  unfold partial at 1 in Hrun. rewrite Hrun by lia.
  unfold partial. do 3 f_equal.
  apply list_fmap_ext. intros i a Ha. apply lookup_seq in Ha as [-> Hi].
  unfold filled. simpl. destruct (Nat.ltb_spec i (nrows * ncols)); [reflexivity|lia].
Qed.

Lemma sampled_load r c ri ci v :
  rowIndices !! r = Some ri -> colIndices !! c = Some ci ->
  load image (ptr image ri) ci = Some v -> sampled' r c = v.
Proof.
  intros Hr Hc Hv. unfold sampled. rewrite Hr. simpl. rewrite Hc. simpl.
  now rewrite Hv.
Qed.

(** Reading the finished patch at a position inside the tables. *)
Lemma Mat_at_sampled ty r c :
  (r < nrows)%nat -> (c < ncols)%nat ->
  Mat_at (mkMat nrows ncols ty ((fun a => sampled' (a / ncols)%nat (a mod ncols)%nat) <$> seq 0 (nrows * ncols)))
    (Z.of_nat r) (Z.of_nat c)
  = Some (sampled' r c).
Proof.
  intros Hr Hc. unfold Mat_at. simpl.
  destruct (Z.leb_spec 0 (Z.of_nat r)); [|lia].
  destruct (Z.ltb_spec (Z.of_nat r) (Z.of_nat nrows)); [|lia].
  destruct (Z.leb_spec 0 (Z.of_nat c)); [|lia].
  destruct (Z.ltb_spec (Z.of_nat c) (Z.of_nat ncols)); [|lia].
  simpl.
  replace (Z.to_nat (Z.of_nat r * Z.of_nat ncols + Z.of_nat c)) with (r * ncols + c)%nat by lia.
  rewrite list_lookup_fmap, lookup_seq_lt by nia. simpl.
  destruct (offset_div_mod r c Hc) as [-> ->]. reflexivity.
Qed.

End Copy.

End PatchSamplerFacts.

Section PatchSamplerTheorems.

Import PatchSampler.

Context {T : Type}.

(** Two runs whose reads through the tables give the same elements build the
    same patch, whatever the two fresh buffers held. *)
Lemma createPatchData_patch_ext (u1 u2 : nat -> T) (img1 img2 : Mat T)
    (rowIndices colIndices : list Z) :
  mat_type img1 = mat_type img2 ->
  (forall r c ri ci, rowIndices !! r = Some ri -> colIndices !! c = Some ci ->
     exists v, load img1 (ptr img1 ri) ci = Some v /\
               load img2 (ptr img2 ri) ci = Some v) ->
  createPatchData u2 img2 rowIndices colIndices
  = Some (mkFrame img2 rowIndices colIndices
            (mkMat (length rowIndices) (length colIndices) (mat_type img1)
               ((fun a => sampled u1 img1 rowIndices colIndices
                            (a / length colIndices) (a mod length colIndices))
                  <$> seq 0 (length rowIndices * length colIndices)))).
Proof.
  intros Hty Hag. rewrite createPatchData_sampled.
  - rewrite Hty. do 3 f_equal. apply list_fmap_ext. intros i a Ha.
    apply lookup_seq in Ha as [-> Hi]. simpl.
    assert (0 < length colIndices)%nat as Hw by nia.
    assert (i / length colIndices < length rowIndices)%nat as Hq
      by (apply Nat.Div0.div_lt_upper_bound; lia).
    assert (i mod length colIndices < length colIndices)%nat as Hr
      by (apply Nat.mod_upper_bound; lia).
    destruct (lookup_lt_is_Some_2 _ _ Hq) as [ri Hri].
    destruct (lookup_lt_is_Some_2 _ _ Hr) as [ci Hci].
    destruct (Hag _ _ _ _ Hri Hci) as (v & Hv1 & Hv2).
    rewrite (sampled_load u1 img1 _ _ _ _ _ _ v Hri Hci Hv1).
    now apply (sampled_load u2 img2 _ _ _ _ ri ci).
  - intros r c ri ci Hr Hc. destruct (Hag _ _ _ _ Hr Hc) as (v & _ & Hv). eauto.
Qed.

(** C3. For an image and tables whose entries are valid row and column
    indices of it, [createPatchData] returns a buffer of
    [rowLUT.length x colLUT.length] elements with the type of the image, and
    its element at [(r, c)] is the image element at [(rowLUT[r], colLUT[c])],
    whatever the new buffer held before. *)
Theorem createPatchData_copies (uninit : nat -> T) (image : Mat T)
    (rowLUT colLUT : list Z) :
  Mat_wf image ->
  Forall (fun r => 0 <= r < Z.of_nat (mat_rows image)) rowLUT ->
  Forall (fun c => 0 <= c < Z.of_nat (mat_cols image)) colLUT ->
  exists s,
    createPatchData uninit image rowLUT colLUT = Some s /\
    mat_rows (st_patch s) = length rowLUT /\
    mat_cols (st_patch s) = length colLUT /\
    mat_type (st_patch s) = mat_type image /\
    Mat_wf (st_patch s) /\
    forall r c ri ci, rowLUT !! r = Some ri -> colLUT !! c = Some ci ->
      exists v, Mat_at image ri ci = Some v /\
                Mat_at (st_patch s) (Z.of_nat r) (Z.of_nat c) = Some v.
Proof.
  intros Hwf Hrows Hcols.
  assert (forall r c ri ci, rowLUT !! r = Some ri -> colLUT !! c = Some ci ->
            is_Some (Mat_at image ri ci)) as Hat.
  { intros r c ri ci Hr Hc. apply Mat_at_valid; [assumption| |].
    - apply (Forall_lookup_1 _ _ _ _ Hrows Hr).
    - apply (Forall_lookup_1 _ _ _ _ Hcols Hc). }
  eexists. split.
  - apply createPatchData_sampled. intros r c ri ci Hr Hc.
    destruct (Hat r c ri ci Hr Hc) as [v Hv]. exists v. now apply load_Mat_at.
  - simpl. repeat split.
    + unfold Mat_wf. simpl. now rewrite length_fmap, length_seq.
    + intros r c ri ci Hr Hc. destruct (Hat r c ri ci Hr Hc) as [v Hv].
      exists v. split; [exact Hv|].
      rewrite Mat_at_sampled by eauto using lookup_lt_Some. f_equal.
      apply (sampled_load _ _ _ _ _ _ ri ci); auto using load_Mat_at.
Qed.

(** C9. Whenever [createPatchData] returns, the image and the two index
    vectors hold what they held before the call. *)
Theorem createPatchData_inputs_unchanged (uninit : nat -> T) (image : Mat T)
    (rowIndices colIndices : list Z) (s : Frame T) :
  createPatchData uninit image rowIndices colIndices = Some s ->
  st_image s = image /\ st_rowIndices s = rowIndices /\
  st_colIndices s = colIndices.
Proof.
  unfold createPatchData. intros Hrun. apply copyRows_frame in Hrun.
  exact Hrun.
Qed.

(** C10. For two images of one size and type that hold the same element at
    every position the tables select, [createPatchData] returns the same
    buffer; positions of the patch that go back to one image position hold
    one element. *)
Theorem createPatchData_selected_only (u1 u2 : nat -> T) (img1 img2 : Mat T)
    (rowIndices colIndices : list Z) :
  mat_rows img1 = mat_rows img2 -> mat_cols img1 = mat_cols img2 ->
  mat_type img1 = mat_type img2 ->
  (forall r c ri ci, rowIndices !! r = Some ri -> colIndices !! c = Some ci ->
     exists v, Mat_at img1 ri ci = Some v /\ Mat_at img2 ri ci = Some v) ->
  exists s1 s2,
    createPatchData u1 img1 rowIndices colIndices = Some s1 /\
    createPatchData u2 img2 rowIndices colIndices = Some s2 /\
    st_patch s1 = st_patch s2 /\
    forall r1 c1 r2 c2 ri ci,
      rowIndices !! r1 = Some ri -> rowIndices !! r2 = Some ri ->
      colIndices !! c1 = Some ci -> colIndices !! c2 = Some ci ->
      exists v,
        Mat_at (st_patch s1) (Z.of_nat r1) (Z.of_nat c1) = Some v /\
        Mat_at (st_patch s1) (Z.of_nat r2) (Z.of_nat c2) = Some v.
Proof.
  intros _ _ Hty Hag. do 2 eexists.
  split; [|split; [|split]].
  - apply (createPatchData_patch_ext u1 u1 img1 img1); [reflexivity|].
    intros r c ri ci Hr Hc. destruct (Hag r c ri ci Hr Hc) as (v & Hv & _).
    exists v. split; now apply load_Mat_at.
  - apply (createPatchData_patch_ext u1 u2 img1 img2); [exact Hty|].
    intros r c ri ci Hr Hc. destruct (Hag r c ri ci Hr Hc) as (v & Hv1 & Hv2).
    exists v. split; now apply load_Mat_at.
  - reflexivity.
  - intros r1 c1 r2 c2 ri ci Hr1 Hr2 Hc1 Hc2. simpl.
    destruct (Hag r1 c1 ri ci Hr1 Hc1) as (v & Hv & _).
    apply load_Mat_at in Hv. exists v.
    rewrite !Mat_at_sampled by eauto using lookup_lt_Some.
    split; f_equal; apply (sampled_load _ _ _ _ _ _ ri ci); assumption.
Qed.

End PatchSamplerTheorems.

Lemma createPatchData_copies_witness :
  exists s,
    PatchSampler.createPatchData (fun _ => 0) (PatchSampler.mkMat 2 3 0 [10; 11; 12; 20; 21; 22])
      [1; 0; 0; 1] [2; 2; 0] = Some s /\
    PatchSampler.mat_rows (PatchSampler.st_patch s) = 4%nat /\
    PatchSampler.mat_cols (PatchSampler.st_patch s) = 3%nat /\
    PatchSampler.mat_type (PatchSampler.st_patch s) = 0 /\
    PatchSampler.Mat_wf (PatchSampler.st_patch s) /\
    forall r c ri ci,
      [1; 0; 0; 1] !! r = Some ri -> [2; 2; 0] !! c = Some ci ->
      exists v, PatchSampler.Mat_at (PatchSampler.mkMat 2 3 0 [10; 11; 12; 20; 21; 22]) ri ci = Some v /\
                PatchSampler.Mat_at (PatchSampler.st_patch s) (Z.of_nat r) (Z.of_nat c) = Some v.
Proof.
  apply (createPatchData_copies (fun _ => 0) (PatchSampler.mkMat 2 3 0 [10; 11; 12; 20; 21; 22])
           [1; 0; 0; 1] [2; 2; 0]).
  - reflexivity.
  - repeat constructor; lia.
  - repeat constructor; lia.
Defined.

Lemma createPatchData_inputs_unchanged_witness :
  let image := PatchSampler.mkMat 2 3 0 [10; 11; 12; 20; 21; 22] in
  let s :=
    PatchSampler.mkFrame image [1; 0] [2; 2; 0]
      (PatchSampler.mkMat 2 3 0 [22; 22; 20; 12; 12; 10]) in
  PatchSampler.st_image s = image /\ PatchSampler.st_rowIndices s = [1; 0] /\
  PatchSampler.st_colIndices s = [2; 2; 0].
Proof.
  intros image s.
  apply (createPatchData_inputs_unchanged (fun _ => 0) image [1; 0] [2; 2; 0] s).
  reflexivity.
Defined.

Lemma createPatchData_selected_only_witness :
  let img1 := PatchSampler.mkMat 2 2 0 [1; 2; 3; 4] in
  let img2 := PatchSampler.mkMat 2 2 0 [1; 9; 3; 8] in
  exists s1 s2,
    PatchSampler.createPatchData (fun _ => 0) img1 [1; 0; 0; 1] [0; 0] = Some s1 /\
    PatchSampler.createPatchData (fun _ => 5) img2 [1; 0; 0; 1] [0; 0] = Some s2 /\
    PatchSampler.st_patch s1 = PatchSampler.st_patch s2 /\
    forall r1 c1 r2 c2 ri ci,
      [1; 0; 0; 1] !! r1 = Some ri -> [1; 0; 0; 1] !! r2 = Some ri ->
      [0; 0] !! c1 = Some ci -> [0; 0] !! c2 = Some ci ->
      exists v,
        PatchSampler.Mat_at (PatchSampler.st_patch s1) (Z.of_nat r1) (Z.of_nat c1) = Some v /\
        PatchSampler.Mat_at (PatchSampler.st_patch s1) (Z.of_nat r2) (Z.of_nat c2) = Some v.
Proof.
  intros img1 img2.
  apply (createPatchData_selected_only (fun _ => 0) (fun _ => 5) img1 img2
           [1; 0; 0; 1] [0; 0]); try reflexivity.
  intros r c ri ci Hr Hc.
  destruct c as [|[|c]]; try discriminate; injection Hc as <-;
    destruct r as [|[|[|[|r]]]]; try discriminate; injection Hr as <-;
    eexists; split; reflexivity.
Defined.

(** ** Facts about FeatureAssembler *)

Section ListFacts.

Context {A : Type}.

Lemma lookup_concat_uniform (n : nat) (ls : list (list A)) (i j : nat) :
  Forall (fun l => length l = n) ls -> (j < n)%nat ->
  concat ls !! (i * n + j)%nat = ls !! i ≫= (.!! j).
Proof.
  intros Hall Hj. revert i. induction Hall as [|l ls Hl _ IH]; intros i.
  - reflexivity.
  - simpl. destruct i as [|i].
    + simpl. apply lookup_app_l. lia.
    + rewrite lookup_app_r by (rewrite Hl; lia). simpl. rewrite <- IH.
      f_equal. rewrite Hl. lia.
Qed.

Lemma length_concat_uniform (n : nat) (ls : list (list A)) :
  Forall (fun l => length l = n) ls -> length (concat ls) = (length ls * n)%nat.
Proof.
  induction 1 as [|l ls Hl _ IH]; [reflexivity|].
  simpl. rewrite length_app, IH, Hl. lia.
Qed.

Lemma Forall_concat (P : A -> Prop) (ls : list (list A)) :
  Forall (Forall P) ls -> Forall P (concat ls).
Proof.
  induction 1 as [|l ls Hl _ IH]; [constructor|].
  simpl. apply Forall_app. now split.
Qed.

Lemma length_stripEnds (l : list A) :
  length (FeatureAssembler.stripEnds l) = (length l - 2)%nat.
Proof.
  unfold FeatureAssembler.stripEnds. rewrite length_take, length_drop. lia.
Qed.

Lemma lookup_stripEnds (l : list A) (i : nat) :
  (i + 2 < length l)%nat -> FeatureAssembler.stripEnds l !! i = l !! S i.
Proof.
  intros Hi. unfold FeatureAssembler.stripEnds.
  rewrite lookup_take_lt by lia. now rewrite lookup_drop.
Qed.

Lemma Forall_stripEnds (P : A -> Prop) (l : list A) :
  Forall P l -> Forall P (FeatureAssembler.stripEnds l).
Proof.
  intros Hl. unfold FeatureAssembler.stripEnds.
  now apply Forall_take, Forall_drop.
Qed.


Lemma find_elem_of (f : A -> bool) (l : list A) (a : A) :
  List.find f l = Some a -> a ∈ l.
Proof.
  induction l as [|b l IH]; [discriminate|]. simpl.
  destruct (f b); [intros [= ->]; left|intros Hf; right; auto].
Qed.

End ListFacts.

Section FeatureAssemblerFacts.

Import IndexMapper PatchSampler FeatureAssembler.

Context {Elem Value Scale : Type} `{ScaleOps Scale}.

(** Cutting the ring off a grid of [(rows+2) x (cols+2)] cells. *)
Lemma dropRing_shape (rows cols d : nat) (g : Grid Value) :
  GridShape (rows + 2) (cols + 2) d g -> GridShape rows cols d (dropRing g).
Proof.
  intros [Hlen Hall]. unfold dropRing. split.
  - rewrite length_fmap, length_stripEnds. lia.
  - apply Forall_fmap. apply Forall_stripEnds.
    eapply Forall_impl; [exact Hall|]. intros row [Hrow Hcells]. simpl.
    split; [rewrite length_stripEnds; lia|now apply Forall_stripEnds].
Qed.

Lemma dropRing_lookup (rows cols d : nat) (g : Grid Value) (r c : nat) :
  GridShape (rows + 2) (cols + 2) d g -> (r < rows)%nat -> (c < cols)%nat ->
  dropRing g !! r ≫= (.!! c) = g !! S r ≫= (.!! S c).
Proof.
  intros [Hlen Hall] Hr Hc. unfold dropRing.
  rewrite list_lookup_fmap, lookup_stripEnds by lia.
  destruct (g !! S r) as [row|] eqn:Hrow; [|reflexivity]. simpl.
  apply lookup_stripEnds.
  destruct (Forall_lookup_1 _ _ _ _ Hall Hrow) as [-> _]. lia.
Qed.

(** The cells of a grid laid out row by row, each cell in its own order. *)
Lemma concat_cells_shape (rows cols d : nat) (g : Grid Value) :
  GridShape rows cols d g ->
  length (concat (concat g)) = (cols * rows * d)%nat /\
  forall r c j, (r < rows)%nat -> (c < cols)%nat -> (j < d)%nat ->
    concat (concat g) !! ((r * cols + c) * d + j)%nat
    = (g !! r ≫= (.!! c)) ≫= (.!! j).
Proof.
  intros [Hlen Hall].
  assert (Forall (fun row => length row = cols) g) as Hrows
    by (eapply Forall_impl; [exact Hall|]; now intros row [Hrow _]).
  assert (Forall (fun cell => length cell = d) (concat g)) as Hcells
    by (apply Forall_concat; eapply Forall_impl; [exact Hall|]; now intros row [_ Hc]).
  split.
  - rewrite (length_concat_uniform d) by exact Hcells.
    rewrite (length_concat_uniform cols) by exact Hrows. lia.
  - intros r c j Hr Hc Hj.
    rewrite (lookup_concat_uniform d) by assumption.
    now rewrite (lookup_concat_uniform cols) by assumption.
Qed.



(** C4. When [extract] returns a patch, and the filter yields a grid of
    [(cols+2) x (rows+2)] cells of descriptor length [d], then the feature
    vector has length [cols * rows * d]; the value at place
    [(r * cols + c) * d + j] is value [j] of the cell in row [r+1] and column
    [c+1] of the filter's output on the sampled patch, so that no cell of
    the border ring contributes; and the patch carries the requested
    rectangle [(x, y, width, height)]. *)
Theorem extract_feature_vector (e : Extractor Elem Value Scale)
    (uninit : nat -> Elem) (x y width height : Z) (p : Patch Value)
    (rows cols d : nat) :
  (forall m, GridShape (rows + 2) (cols + 2) d (ehogFilter e m)) ->
  fst (extract e uninit x y width height) = Extracted p ->
  length (patch_data p) = (cols * rows * d)%nat /\
  patch_bounds p = mkRect x y width height /\
  exists layer m,
    selectLayer e width height = Some layer /\
    samplePatch uninit (layerImage layer)
      (samplingRect e layer (mkRect x y width height)) = Some (Some m) /\
    forall r c j, (r < rows)%nat -> (c < cols)%nat -> (j < d)%nat ->
      patch_data p !! ((r * cols + c) * d + j)%nat
      = (ehogFilter e m !! S r ≫= (.!! S c)) ≫= (.!! j).
Proof.
  intros Hshape. unfold extract.
  destruct (selectLayer e width height) as [layer|]; [|discriminate].
  destruct (samplePatch _ _ _) as [[m|]|] eqn:Hm; try discriminate.
  simpl. intros [= <-]. simpl.
  destruct (concat_cells_shape rows cols d (dropRing (ehogFilter e m))
              (dropRing_shape _ _ _ _ (Hshape m))) as [Hlen Hlook].
  split; [exact Hlen|]. split; [reflexivity|].
  exists layer, m. split; [reflexivity|]. split; [exact Hm|].
  intros r c j Hr Hc Hj. unfold assemble. rewrite Hlook by assumption.
  now rewrite (dropRing_lookup rows cols d) by auto.
Qed.

End FeatureAssemblerFacts.

Section FeatureAssemblerWitnesses.

Import PatchSampler FeatureAssembler Examples.

Lemma extract_feature_vector_witness :
  let e := exampleExtractor in
  let p := mkPatch (mkRect 0 0 1 1) [1] in
  length (patch_data p) = (1 * 1 * 1)%nat /\
  patch_bounds p = mkRect 0 0 1 1 /\
  exists layer m,
    selectLayer e 1 1 = Some layer /\
    samplePatch (fun _ => 0) (layerImage layer)
      (samplingRect e layer (mkRect 0 0 1 1))
    = Some (Some m) /\
    forall r c j, (r < 1)%nat -> (c < 1)%nat -> (j < 1)%nat ->
      patch_data p !! ((r * 1 + c) * 1 + j)%nat
      = (ehogFilter e m !! S r ≫= (.!! S c)) ≫= (.!! j).
Proof.
  intros e p.
  apply (extract_feature_vector e (fun _ => 0) 0 0 1 1 p 1 1 1).
  - intros m. split; [reflexivity|]. repeat constructor.
  - reflexivity.
Defined.

End FeatureAssemblerWitnesses.

(** ** Further properties of [createPatchData] *)

Section PatchSamplerMore.

Import PatchSampler PatchSamplerOps.

Context {T : Type}.

Lemma load_inBuffer (m : Mat T) y x :
  is_Some (load m (ptr m y) x) <-> inBuffer m y x.
Proof.
  unfold load, ptr, inBuffer.
  destruct (Z.ltb_spec (y * Z.of_nat (mat_cols m) + x) 0) as [Hneg|Hpos].
  - split; [intros [v Hv]; discriminate|lia].
  - rewrite lookup_lt_is_Some. lia.
Qed.

Lemma load_offset (m : Mat T) y x :
  0 <= y * Z.of_nat (mat_cols m) + x ->
  load m (ptr m y) x = mat_data m !! Z.to_nat (y * Z.of_nat (mat_cols m) + x).
Proof.
  intros Hpos. unfold load, ptr.
  destruct (Z.ltb_spec (y * Z.of_nat (mat_cols m) + x) 0); [lia|reflexivity].
Qed.

(** A row that was copied was read at every column of the table. *)
Lemma copyRow_reads fuel patchRow imageRow patchX (s s' : Frame T) :
  copyRow fuel patchRow imageRow patchX s = Some s' ->
  forall c ci, (patchX <= c)%nat -> st_colIndices s !! c = Some ci ->
    is_Some (load (st_image s) imageRow ci).
Proof.
  revert patchX s. induction fuel as [|fuel IH]; intros patchX s; simpl.
  - destruct (Nat.ltb_spec patchX (length (st_colIndices s))) as [Hlt|Hge];
      [discriminate|].
    intros _ c ci Hc Hci. apply lookup_lt_Some in Hci. lia.
  - destruct (Nat.ltb_spec patchX (length (st_colIndices s))) as [Hlt|Hge].
    + destruct (st_colIndices s !! patchX) as [c0|] eqn:Hc0; [|discriminate].
      destruct (load (st_image s) imageRow c0) as [v|] eqn:Hv; [|discriminate].
      destruct (store (st_patch s) patchRow (Z.of_nat patchX) v) as [p|];
        [|discriminate].
      intros Hrun c ci Hc Hci.
      destruct (decide (c = patchX)) as [->|Hne].
      * rewrite Hc0 in Hci. injection Hci as <-. eauto.
      * apply (IH _ _ Hrun c ci); [lia|exact Hci].
    + intros _ c ci Hc Hci. apply lookup_lt_Some in Hci. lia.
Qed.

Lemma copyRows_reads fuel patchY (s s' : Frame T) :
  copyRows fuel patchY s = Some s' ->
  forall r c ri ci, (patchY <= r)%nat ->
    st_rowIndices s !! r = Some ri -> st_colIndices s !! c = Some ci ->
    is_Some (load (st_image s) (ptr (st_image s) ri) ci).
Proof.
  revert patchY s. induction fuel as [|fuel IH]; intros patchY s; simpl.
  - destruct (Nat.ltb_spec patchY (length (st_rowIndices s))) as [Hlt|Hge];
      [discriminate|].
    intros _ r c ri ci Hr Hri. apply lookup_lt_Some in Hri. lia.
  - destruct (Nat.ltb_spec patchY (length (st_rowIndices s))) as [Hlt|Hge].
    + destruct (st_rowIndices s !! patchY) as [r0|] eqn:Hr0; [|discriminate].
      destruct (copyRow _ _ _ _ s) as [s1|] eqn:Hrow; [|discriminate].
      intros Hrun r c ri ci Hr Hri Hci.
      destruct (decide (r = patchY)) as [->|Hne].
      * rewrite Hr0 in Hri. injection Hri as <-.
        apply (copyRow_reads _ _ _ _ _ _ Hrow c ci); [lia|exact Hci].
      * destruct (copyRow_frame _ _ _ _ _ _ Hrow) as (Himg & Hrows & Hcols).
        rewrite <- Himg. apply (IH _ _ Hrun r c); [lia| |]; congruence.
    + intros _ r c ri ci Hr Hri. apply lookup_lt_Some in Hri. lia.
Qed.

Lemma createPatchData_reads (uninit : nat -> T) (image : Mat T)
    (rowIndices colIndices : list Z) (s : Frame T) :
  createPatchData uninit image rowIndices colIndices = Some s ->
  forall r c ri ci, rowIndices !! r = Some ri -> colIndices !! c = Some ci ->
    is_Some (load image (ptr image ri) ci).
Proof.
  unfold createPatchData. intros Hrun r c ri ci Hr Hc.
  apply (copyRows_reads _ _ _ _ Hrun r c ri ci); [lia|exact Hr|exact Hc].
Qed.

(** Two runs over tables of the same lengths whose reads give the same
    elements, position by position, build the same patch. *)
Lemma createPatchData_patch_eq (u1 u2 : nat -> T) (img1 img2 : Mat T)
    (rows1 cols1 rows2 cols2 : list Z) :
  length rows1 = length rows2 -> length cols1 = length cols2 ->
  mat_type img1 = mat_type img2 ->
  (forall r c ri1 ci1 ri2 ci2,
     rows1 !! r = Some ri1 -> cols1 !! c = Some ci1 ->
     rows2 !! r = Some ri2 -> cols2 !! c = Some ci2 ->
     exists v, load img1 (ptr img1 ri1) ci1 = Some v /\
               load img2 (ptr img2 ri2) ci2 = Some v) ->
  exists p,
    createPatchData u1 img1 rows1 cols1 = Some (mkFrame img1 rows1 cols1 p) /\
    createPatchData u2 img2 rows2 cols2 = Some (mkFrame img2 rows2 cols2 p).
Proof.
  intros Hrows Hcols Hty Hag. eexists. split.
  - apply createPatchData_sampled. intros r c ri ci Hr Hc.
    destruct (lookup_lt_is_Some_2 rows2 r) as [ri2 Hri2];
      [rewrite <- Hrows; eauto using lookup_lt_Some|].
    destruct (lookup_lt_is_Some_2 cols2 c) as [ci2 Hci2];
      [rewrite <- Hcols; eauto using lookup_lt_Some|].
    destruct (Hag _ _ _ _ _ _ Hr Hc Hri2 Hci2) as (v & Hv & _). eauto.
  - rewrite createPatchData_sampled.
    + rewrite <- Hrows, <- Hcols, <- Hty. do 3 f_equal.
      apply list_fmap_ext. intros i a Ha. apply lookup_seq in Ha as [-> Hi]. simpl.
      assert (0 < length cols1)%nat as Hw by nia.
      assert (i / length cols1 < length rows1)%nat as Hq
        by (apply Nat.Div0.div_lt_upper_bound; lia).
      assert (i mod length cols1 < length cols1)%nat as Hr
        by (apply Nat.mod_upper_bound; lia).
      destruct (lookup_lt_is_Some_2 rows1 _ Hq) as [ri1 Hri1].
      destruct (lookup_lt_is_Some_2 cols1 _ Hr) as [ci1 Hci1].
      rewrite Hrows in Hq. rewrite Hcols in Hr at 2.
      destruct (lookup_lt_is_Some_2 rows2 _ Hq) as [ri2 Hri2].
      destruct (lookup_lt_is_Some_2 cols2 _ Hr) as [ci2 Hci2].
      destruct (Hag _ _ _ _ _ _ Hri1 Hci1 Hri2 Hci2) as (v & Hv1 & Hv2).
      rewrite (sampled_load u1 img1 _ _ _ _ _ _ v Hri1 Hci1 Hv1).
      now apply (sampled_load u2 img2 _ _ _ _ ri2 ci2).
    + intros r c ri ci Hr Hc.
      destruct (lookup_lt_is_Some_2 rows1 r) as [ri1 Hri1];
        [rewrite Hrows; eauto using lookup_lt_Some|].
      destruct (lookup_lt_is_Some_2 cols1 c) as [ci1 Hci1];
        [rewrite Hcols; eauto using lookup_lt_Some|].
      destruct (Hag _ _ _ _ _ _ Hri1 Hci1 Hr Hc) as (v & _ & Hv). eauto.
Qed.

(** X2. For a continuous image: when every offset
    [rowIndices[r] * cols + colIndices[c]] lies inside the image buffer, the
    call returns a patch of [rowIndices.size()] rows and [colIndices.size()]
    columns with the type of the image and a buffer of rows * cols elements,
    and its element [(r, c)] is the element at that offset of the image
    buffer.  The column index is not compared with the width of the image:
    an index past the end of a row selects an element of a later row. *)
Theorem createPatchData_reads_offsets (uninit : nat -> T) (image : Mat T)
    (rowIndices colIndices : list Z) :
  Mat_wf image ->
  (forall r c ri ci, rowIndices !! r = Some ri -> colIndices !! c = Some ci ->
     inBuffer image ri ci) ->
  exists s,
    createPatchData uninit image rowIndices colIndices = Some s /\
    mat_rows (st_patch s) = length rowIndices /\
    mat_cols (st_patch s) = length colIndices /\
    mat_type (st_patch s) = mat_type image /\
    Mat_wf (st_patch s) /\
    forall r c ri ci, rowIndices !! r = Some ri -> colIndices !! c = Some ci ->
      exists v,
        mat_data image !! Z.to_nat (ri * Z.of_nat (mat_cols image) + ci) = Some v /\
        Mat_at (st_patch s) (Z.of_nat r) (Z.of_nat c) = Some v.
Proof.
  intros _ Hin.
  assert (forall r c ri ci, rowIndices !! r = Some ri -> colIndices !! c = Some ci ->
            is_Some (load image (ptr image ri) ci)) as Hloads
    by (intros r c ri ci Hr Hc; apply load_inBuffer; eauto).
  eexists. split; [now apply createPatchData_sampled|].
  simpl. repeat split.
  - unfold Mat_wf. simpl. now rewrite length_fmap, length_seq.
  - intros r c ri ci Hr Hc. destruct (Hloads r c ri ci Hr Hc) as [v Hv].
    exists v. split.
    + rewrite <- load_offset; [exact Hv|].
      destruct (Hin r c ri ci Hr Hc) as [Hlo _]. exact Hlo.
    + rewrite Mat_at_sampled by eauto using lookup_lt_Some. f_equal.
      now apply (sampled_load _ _ _ _ _ _ ri ci).
Qed.

(** X3. With an empty row table no element is read: for every image and
    every column table the call returns a matrix of no rows.  With an empty
    column table the row pointers are computed but never dereferenced, and
    the call returns a matrix of no columns for every row table. *)
Theorem createPatchData_empty_tables (uninit : nat -> T) (image : Mat T)
    (rowIndices colIndices : list Z) :
  createPatchData uninit image [] colIndices
  = Some (mkFrame image [] colIndices
            (mkMat 0 (length colIndices) (mat_type image) [])) /\
  createPatchData uninit image rowIndices []
  = Some (mkFrame image rowIndices []
            (mkMat (length rowIndices) 0 (mat_type image) [])).
Proof.
  split.
  - reflexivity.
  - rewrite createPatchData_sampled.
    + simpl. now rewrite Nat.mul_0_r.
    + intros r c ri ci _ Hc. discriminate.
Qed.

Lemma length_identityLut (n : nat) : length (identityLut n) = n.
Proof. unfold identityLut. now rewrite length_fmap, length_seq. Qed.

Lemma lookup_identityLut (n i : nat) (v : Z) :
  identityLut n !! i = Some v <-> v = Z.of_nat i /\ (i < n)%nat.
Proof.
  unfold identityLut. rewrite list_lookup_fmap. split.
  - destruct (seq 0 n !! i) as [k|] eqn:Hk; [|discriminate].
    apply lookup_seq in Hk as [-> Hi]. simpl. intros [= <-]. auto.
  - intros [-> Hi]. now rewrite lookup_seq_lt.
Qed.

(** X4. With the tables [0, ..., rows-1] and [0, ..., cols-1] the returned
    matrix is a copy of the image. *)
Theorem createPatchData_identity (uninit : nat -> T) (image : Mat T) :
  Mat_wf image ->
  createPatchData uninit image
    (identityLut (mat_rows image)) (identityLut (mat_cols image))
  = Some (mkFrame image
            (identityLut (mat_rows image)) (identityLut (mat_cols image)) image).
Proof.
  intros Hwf.
  assert (forall r c ri ci,
            identityLut (mat_rows image) !! r = Some ri ->
            identityLut (mat_cols image) !! c = Some ci ->
            load image (ptr image ri) ci = mat_data image !! (r * mat_cols image + c)%nat
            /\ (r * mat_cols image + c < length (mat_data image))%nat) as Hload.
  { intros r c ri ci Hr Hc.
    apply lookup_identityLut in Hr as [-> Hr], Hc as [-> Hc].
    rewrite load_offset by lia. split; [f_equal; lia|]. rewrite Hwf. nia. }
  rewrite createPatchData_sampled.
  - do 2 f_equal. destruct image as [rows cols ty data]. simpl in *.
    rewrite !length_identityLut. f_equal.
    apply list_eq. intros i. rewrite list_lookup_fmap.
    destruct (decide (i < rows * cols)%nat) as [Hi|Hi].
    + rewrite lookup_seq_lt by exact Hi. simpl.
      assert (0 < cols)%nat as Hw by nia.
      assert (i / cols < rows)%nat as Hq
        by (apply Nat.Div0.div_lt_upper_bound; lia).
      assert (i mod cols < cols)%nat as Hr by (apply Nat.mod_upper_bound; lia).
      destruct (Hload (i / cols)%nat (i mod cols)%nat
                  (Z.of_nat (i / cols)) (Z.of_nat (i mod cols))) as [Hv _];
        [now apply lookup_identityLut..|].
      replace (i / cols * cols + i mod cols)%nat with i in Hv
        by (pose proof (Nat.div_mod_eq i cols); lia).
      destruct (lookup_lt_is_Some_2 data i) as [v Hd]; [unfold Mat_wf in Hwf; simpl in Hwf; lia|].
      rewrite Hd in *. f_equal.
      apply (sampled_load _ _ _ _ _ _ (Z.of_nat (i / cols)) (Z.of_nat (i mod cols)));
        [now apply lookup_identityLut..|exact Hv].
    + rewrite lookup_seq_ge by lia. simpl. symmetry. apply lookup_ge_None.
      unfold Mat_wf in Hwf. simpl in Hwf. lia.
  - intros r c ri ci Hr Hc. destruct (Hload r c ri ci Hr Hc) as [-> Hlt].
    now apply lookup_lt_is_Some_2.
Qed.

Lemma load_Mat_map {U : Type} (f : T -> U) (m : Mat T) y x :
  load (Mat_map f m) (ptr (Mat_map f m) y) x = f <$> load m (ptr m y) x.
Proof.
  unfold load, ptr, Mat_map. simpl.
  destruct (_ <? 0); [reflexivity|]. apply list_lookup_fmap.
Qed.

(** X5. Sampling commutes with any transformation of the single elements:
    the patch of the transformed image is the transformed patch.  The
    elements are copied, never inspected. *)
Theorem createPatchData_Mat_map {U : Type} (f : T -> U)
    (u : nat -> T) (u' : nat -> U) (image : Mat T)
    (rowIndices colIndices : list Z) (s : Frame T) :
  createPatchData u image rowIndices colIndices = Some s ->
  createPatchData u' (Mat_map f image) rowIndices colIndices
  = Some (mkFrame (Mat_map f image) rowIndices colIndices (Mat_map f (st_patch s))).
Proof.
  intros Hs. pose proof (createPatchData_reads _ _ _ _ _ Hs) as Hloads.
  rewrite createPatchData_sampled in Hs by exact Hloads. injection Hs as <-.
  rewrite createPatchData_sampled.
  - unfold Mat_map. simpl. do 3 f_equal.
    rewrite <- list_fmap_compose. apply list_fmap_ext.
    intros i a Ha. apply lookup_seq in Ha as [-> Hi]. simpl.
    assert (0 < length colIndices)%nat as Hw by nia.
    assert (i / length colIndices < length rowIndices)%nat as Hq
      by (apply Nat.Div0.div_lt_upper_bound; lia).
    assert (i mod length colIndices < length colIndices)%nat as Hr
      by (apply Nat.mod_upper_bound; lia).
    destruct (lookup_lt_is_Some_2 rowIndices _ Hq) as [ri Hri].
    destruct (lookup_lt_is_Some_2 colIndices _ Hr) as [ci Hci].
    destruct (Hloads _ _ _ _ Hri Hci) as [v Hv].
    rewrite (sampled_load u image _ _ _ _ _ _ v Hri Hci Hv).
    apply (sampled_load u' (Mat_map f image) _ _ _ _ ri ci); [assumption..|].
    rewrite load_Mat_map, Hv. reflexivity.
  - intros r c ri ci Hr Hc. rewrite load_Mat_map.
    destruct (Hloads _ _ _ _ Hr Hc) as [v ->]. simpl. eauto.
Qed.

Lemma length_composeLut (outer inner : list Z) :
  length (composeLut outer inner) = length inner.
Proof. unfold composeLut. apply length_fmap. Qed.

Lemma lookup_composeLut (outer inner : list Z) (k : nat) (i : Z) :
  inner !! k = Some i -> 0 <= i < Z.of_nat (length outer) ->
  exists v, outer !! Z.to_nat i = Some v /\ composeLut outer inner !! k = Some v.
Proof.
  intros Hk Hi. destruct (lookup_lt_is_Some_2 outer (Z.to_nat i)) as [v Hv]; [lia|].
  exists v. split; [exact Hv|]. unfold composeLut.
  rewrite list_lookup_fmap, Hk. simpl. now rewrite Hv.
Qed.

(** X6. Sampling a patch of a patch is sampling the image through the
    composed tables: for tables that index into the first pair of tables,
    both ways give the same matrix. *)
Theorem createPatchData_compose (u1 u2 u3 : nat -> T) (image : Mat T)
    (rows1 cols1 rows2 cols2 : list Z) (s1 : Frame T) :
  createPatchData u1 image rows1 cols1 = Some s1 ->
  Forall (fun i => 0 <= i < Z.of_nat (length rows1)) rows2 ->
  Forall (fun j => 0 <= j < Z.of_nat (length cols1)) cols2 ->
  exists p,
    createPatchData u2 (st_patch s1) rows2 cols2
    = Some (mkFrame (st_patch s1) rows2 cols2 p) /\
    createPatchData u3 image (composeLut rows1 rows2) (composeLut cols1 cols2)
    = Some (mkFrame image (composeLut rows1 rows2) (composeLut cols1 cols2) p).
Proof.
  intros Hs Hrows Hcols.
  pose proof (createPatchData_reads _ _ _ _ _ Hs) as Hloads.
  rewrite createPatchData_sampled in Hs by exact Hloads. injection Hs as <-.
  simpl. apply createPatchData_patch_eq.
  - now rewrite length_composeLut.
  - now rewrite length_composeLut.
  - reflexivity.
  - intros r c i j ri ci Hi Hj Hri Hci.
    pose proof (Forall_lookup_1 _ _ _ _ Hrows Hi) as Hir.
    pose proof (Forall_lookup_1 _ _ _ _ Hcols Hj) as Hjr.
    simpl in Hir, Hjr.
    destruct (lookup_composeLut rows1 rows2 r i Hi Hir) as (ri' & Hri1 & Hri').
    destruct (lookup_composeLut cols1 cols2 c j Hj Hjr) as (ci' & Hci1 & Hci').
    rewrite Hri in Hri'. injection Hri' as <-.
    rewrite Hci in Hci'. injection Hci' as <-.
    destruct (Hloads _ _ _ _ Hri1 Hci1) as [v Hv]. exists v. split; [|exact Hv].
    apply load_Mat_at.
    rewrite <- (Z2Nat.id i), <- (Z2Nat.id j) by lia.
    rewrite Mat_at_sampled by lia. f_equal.
    now apply (sampled_load _ _ _ _ _ _ ri ci).
Qed.

(** X7. The rows of the patch are laid out one after the other: the patch
    for the row table [rows1 ++ rows2] is the patch for [rows1] with the
    patch for [rows2] below it. *)
Theorem createPatchData_stack_rows (u u1 u2 : nat -> T) (image : Mat T)
    (rows1 rows2 cols : list Z) (s1 s2 : Frame T) :
  createPatchData u1 image rows1 cols = Some s1 ->
  createPatchData u2 image rows2 cols = Some s2 ->
  createPatchData u image (rows1 ++ rows2) cols
  = Some (mkFrame image (rows1 ++ rows2) cols
            (mkMat (mat_rows (st_patch s1) + mat_rows (st_patch s2))
               (length cols) (mat_type image)
               (mat_data (st_patch s1) ++ mat_data (st_patch s2)))).
Proof.
  intros Hs1 Hs2.
  pose proof (createPatchData_reads _ _ _ _ _ Hs1) as Hloads1.
  pose proof (createPatchData_reads _ _ _ _ _ Hs2) as Hloads2.
  rewrite createPatchData_sampled in Hs1 by exact Hloads1. injection Hs1 as <-.
  rewrite createPatchData_sampled in Hs2 by exact Hloads2. injection Hs2 as <-.
  assert (forall r c ri ci, (rows1 ++ rows2) !! r = Some ri -> cols !! c = Some ci ->
            is_Some (load image (ptr image ri) ci)) as Hloads.
  { intros r c ri ci Hr Hc. apply lookup_app_Some in Hr as [Hr|[_ Hr]]; eauto. }
  rewrite createPatchData_sampled by exact Hloads. simpl.
  rewrite length_app. do 3 f_equal.
  rewrite Nat.mul_add_distr_r, seq_app, fmap_app. f_equal.
  - apply list_fmap_ext. intros i a Ha. apply lookup_seq in Ha as [-> Hi]. simpl.
    assert (0 < length cols)%nat as Hw by nia.
    assert (i / length cols < length rows1)%nat as Hq
      by (apply Nat.Div0.div_lt_upper_bound; lia).
    assert (i mod length cols < length cols)%nat as Hr
      by (apply Nat.mod_upper_bound; lia).
    destruct (lookup_lt_is_Some_2 rows1 _ Hq) as [ri Hri].
    destruct (lookup_lt_is_Some_2 cols _ Hr) as [ci Hci].
    destruct (Hloads1 _ _ _ _ Hri Hci) as [v Hv].
    rewrite (sampled_load u1 image _ _ _ _ _ _ v Hri Hci Hv).
    apply (sampled_load u image _ _ _ _ ri ci); [|assumption..].
    now rewrite lookup_app_l.
  - replace (seq (0 + length rows1 * length cols) (length rows2 * length cols))
      with (Nat.add (length rows1 * length cols) <$> seq 0 (length rows2 * length cols))
      by (rewrite fmap_add_seq; f_equal; lia).
    rewrite <- list_fmap_compose.
    apply list_fmap_ext. intros i a Ha. apply lookup_seq in Ha as [-> Hi]. simpl.
    assert (0 < length cols)%nat as Hw by nia.
    assert (i / length cols < length rows2)%nat as Hq
      by (apply Nat.Div0.div_lt_upper_bound; lia).
    assert (i mod length cols < length cols)%nat as Hr
      by (apply Nat.mod_upper_bound; lia).
    destruct (lookup_lt_is_Some_2 rows2 _ Hq) as [ri Hri].
    destruct (lookup_lt_is_Some_2 cols _ Hr) as [ci Hci].
    destruct (Hloads2 _ _ _ _ Hri Hci) as [v Hv].
    rewrite (sampled_load u2 image _ _ _ _ _ _ v Hri Hci Hv).
    rewrite Nat.div_add_l by lia.
    rewrite (Nat.add_comm (length rows1 * length cols) i), Nat.Div0.mod_add.
    apply (sampled_load u image _ _ _ _ ri ci); [|assumption..].
    rewrite lookup_app_r by lia. rewrite <- Hri. f_equal. lia.
Qed.

(** X8. What the newly allocated buffer holds has no effect: whether the
    call returns, and the state it returns, are the same for any two initial
    contents.  No element of the returned matrix is left as allocated. *)
Theorem createPatchData_ignores_garbage (u1 u2 : nat -> T) (image : Mat T)
    (rowIndices colIndices : list Z) :
  createPatchData u1 image rowIndices colIndices
  = createPatchData u2 image rowIndices colIndices.
Proof.
  assert (forall ua ub s,
            createPatchData ua image rowIndices colIndices = Some s ->
            createPatchData ub image rowIndices colIndices = Some s) as Hsame.
  { intros ua ub s Hs.
    pose proof (createPatchData_reads _ _ _ _ _ Hs) as Hloads.
    destruct (createPatchData_patch_eq ua ub image image
                rowIndices colIndices rowIndices colIndices) as (p & Ha & Hb);
      try reflexivity.
    - intros r c ri1 ci1 ri2 ci2 Hr1 Hc1 Hr2 Hc2.
      rewrite Hr1 in Hr2. injection Hr2 as <-.
      rewrite Hc1 in Hc2. injection Hc2 as <-.
      destruct (Hloads _ _ _ _ Hr1 Hc1) as [v Hv]. eauto.
    - congruence. }
  destruct (createPatchData u1 image rowIndices colIndices) as [s|] eqn:H1.
  - symmetry. now apply (Hsame u1 u2).
  - destruct (createPatchData u2 image rowIndices colIndices) as [s|] eqn:H2;
      [|reflexivity].
    apply (Hsame u2 u1) in H2. congruence.
Qed.

End PatchSamplerMore.

Section PatchSamplerMoreWitnesses.

Import PatchSampler PatchSamplerOps.

(** Column 3 of row 0 of a continuous 2 x 3 image is the first element of
    row 1. *)
Lemma createPatchData_reads_offsets_witness :
  exists s,
    createPatchData (fun _ => 0) image23 [0] [3] = Some s /\
    mat_rows (st_patch s) = length [0] /\
    mat_cols (st_patch s) = length [3] /\
    mat_type (st_patch s) = mat_type image23 /\
    Mat_wf (st_patch s) /\
    forall r c ri ci, [0] !! r = Some ri -> [3] !! c = Some ci ->
      exists v,
        mat_data image23 !! Z.to_nat (ri * Z.of_nat (mat_cols image23) + ci) = Some v /\
        Mat_at (st_patch s) (Z.of_nat r) (Z.of_nat c) = Some v.
Proof.
  apply (createPatchData_reads_offsets (fun _ => 0) image23 [0] [3]).
  - reflexivity.
  - intros r c ri ci Hr Hc.
    destruct r as [|r]; [|discriminate]. destruct c as [|c]; [|discriminate].
    injection Hr as <-. injection Hc as <-. unfold inBuffer. simpl. lia.
Defined.

Lemma createPatchData_identity_witness :
  createPatchData (fun _ => 0) image23
    (identityLut (mat_rows image23)) (identityLut (mat_cols image23))
  = Some (mkFrame image23
            (identityLut (mat_rows image23)) (identityLut (mat_cols image23)) image23).
Proof. apply (createPatchData_identity (fun _ => 0) image23). reflexivity. Defined.

Lemma createPatchData_Mat_map_witness :
  let s := mkFrame image23 [1; 1] [2; 0] (mkMat 2 2 0 [22; 20; 22; 20]) in
  createPatchData (fun _ => true) (Mat_map Z.even image23) [1; 1] [2; 0]
  = Some (mkFrame (Mat_map Z.even image23) [1; 1] [2; 0]
            (Mat_map Z.even (st_patch s))).
Proof.
  intros s.
  apply (createPatchData_Mat_map Z.even (fun _ => 0) (fun _ => true) image23
           [1; 1] [2; 0] s).
  reflexivity.
Defined.

Lemma createPatchData_compose_witness :
  let s1 := mkFrame image23 [1; 0] [2; 0] (mkMat 2 2 0 [22; 20; 12; 10]) in
  exists p,
    createPatchData (fun _ => 1) (st_patch s1) [1; 1; 0] [0]
    = Some (mkFrame (st_patch s1) [1; 1; 0] [0] p) /\
    createPatchData (fun _ => 2) image23
      (composeLut [1; 0] [1; 1; 0]) (composeLut [2; 0] [0])
    = Some (mkFrame image23
              (composeLut [1; 0] [1; 1; 0]) (composeLut [2; 0] [0]) p).
Proof.
  intros s1.
  apply (createPatchData_compose (fun _ => 0) (fun _ => 1) (fun _ => 2) image23
           [1; 0] [2; 0] [1; 1; 0] [0] s1).
  - reflexivity.
  - repeat constructor; simpl; lia.
  - repeat constructor; simpl; lia.
Defined.

Lemma createPatchData_stack_rows_witness :
  let s1 := mkFrame image23 [1] [2; 0] (mkMat 1 2 0 [22; 20]) in
  let s2 := mkFrame image23 [0; 0] [2; 0] (mkMat 2 2 0 [12; 10; 12; 10]) in
  createPatchData (fun _ => 0) image23 ([1] ++ [0; 0]) [2; 0]
  = Some (mkFrame image23 ([1] ++ [0; 0]) [2; 0]
            (mkMat (mat_rows (st_patch s1) + mat_rows (st_patch s2))
               (length [2; 0]) (mat_type image23)
               (mat_data (st_patch s1) ++ mat_data (st_patch s2)))).
Proof.
  intros s1 s2.
  apply (createPatchData_stack_rows (fun _ => 0) (fun _ => 1) (fun _ => 2) image23
           [1] [0; 0] [2; 0] s1 s2); reflexivity.
Defined.

End PatchSamplerMoreWitnesses.

(** ** Facts about PyramidSelector *)

Section PyramidSelectorFacts.

Import PyramidSelector.

Local Open Scope R_scope.





Lemma le_div_iff (a b c : R) : 0 < c -> a <= b / c <-> a * c <= b.
Proof.
  intros Hc. split; intros Hle.
  - replace b with (b / c * c) by (field; lra).
    apply Rmult_le_compat_r; lra.
  - replace a with (a * c / c) by (field; lra).
    unfold Rdiv. apply Rmult_le_compat_r; [|exact Hle].
    left. now apply Rinv_0_lt_compat.
Qed.

















End PyramidSelectorFacts.

(** ** Facts about layer selection over a derived pyramid *)

Section LayerSelectionFacts.

Import PatchSampler FeatureAssembler PyramidSelector LayerSelection.

Local Open Scope R_scope.


Context {Elem Value : Type}.

Variable tolerance : R.
Variable scaleRectR : R -> Rect -> Rect.
Variable enlargeRectR : R -> R -> Rect -> Rect.

Local Abbreviation realOps := (realScale tolerance scaleRectR enlargeRectR).


End LayerSelectionFacts.

Section LayerSelectionWitness.

Import PatchSampler FeatureAssembler PyramidSelector LayerSelection.
Import Examples RealExamples.

Local Open Scope R_scope.

Local Abbreviation plainOps := (realScale 0 (fun _ r => r) (fun _ _ r => r)).


End LayerSelectionWitness.
